(** * convert_csv_to_json.py: correlation matrix to sparse upper-triangle document

    A shallow embedding of the script [convert_csv_to_json.py] and the proofs
    of its properties.  The script reads the table [correl.csv], keeps the
    numeric cells lying strictly above the diagonal, and writes the document
    [correl_data.json].

    Conventions of the embedding:
    - a cell is a [string]; a character is an [ascii], read as a code point
      in the range 0..255;
    - a Python [dict] is an association list in insertion order without
      duplicate keys, because [json.dump] writes keys in insertion order;
    - a Python exception that escapes is the left injection of a sum;
      [ValueError] of [float], the only exception the script catches, is the
      [None] of an [option];
    - a Python [float] is an IEEE 754 binary64 number ([spec_float] of the
      standard library, 53 bits of precision). *)

From Stdlib Require Import List String Ascii ZArith Bool Arith Lia.
From Stdlib Require Import SpecFloat DecimalString.
Import ListNotations.

Local Open Scope string_scope.
Local Open Scope list_scope.

(** ** Characters and the string methods the script uses *)

Module Str.

Definition code (c : ascii) : N := N_of_ascii c.

Definition between (lo hi : N) (c : ascii) : bool :=
  (N.leb lo (code c) && N.leb (code c) hi)%bool.

(** [str.isspace] on one character: the code points below 256 that
    Unicode classes as whitespace (TAB..CR, FS..US, SPACE, NEL, NBSP). *)
Definition isspace (c : ascii) : bool :=
  (between 9 13 c || between 28 32 c
   || N.eqb (code c) 133 || N.eqb (code c) 160)%bool.

(** C's [isspace] in the C locale, which [float] uses once the string
    is turned into ASCII. *)
Definition isspace_c (c : ascii) : bool :=
  (between 9 13 c || N.eqb (code c) 32)%bool.

Definition isdigit (c : ascii) : bool := between 48 57 c.

(** ASCII lower-casing. *)
Definition tolower (c : ascii) : ascii :=
  if between 65 90 c then ascii_of_N (code c + 32) else c.

Fixpoint dropwhile (p : ascii -> bool) (l : list ascii) : list ascii :=
  match l with
  | [] => []
  | c :: r => if p c then dropwhile p r else l
  end.

Fixpoint span (p : ascii -> bool) (l : list ascii)
  : list ascii * list ascii :=
  match l with
  | [] => ([], [])
  | c :: r =>
      if p c then let (a, b) := span p r in (c :: a, b) else ([], l)
  end.

Definition strip_with (p : ascii -> bool) (l : list ascii) : list ascii :=
  rev (dropwhile p (rev (dropwhile p l))).

(** [s.strip()] *)
Definition strip (s : string) : string :=
  string_of_list_ascii (strip_with isspace (list_ascii_of_string s)).

(** Truth value of a [str]: non-empty. *)
Definition truthy (s : string) : bool :=
  match s with EmptyString => false | String _ _ => true end.

(** [sep.join(l)] *)
Definition join (sep : string) (l : list string) : string :=
  String.concat sep l.

(** [str(n)] for a non-negative integer. *)
Definition of_nat (n : nat) : string :=
  NilZero.string_of_uint (Nat.to_uint n).

End Str.

(** ** The builtin [float] on a [str] argument

    The grammar is the one of the language reference:
    optional surrounding whitespace, an optional sign, then either
    [inf], [infinity] or [nan] in any case, or a decimal number with an
    optional exponent; single underscores may separate digits.  The value
    is the decimal number rounded to the nearest binary64, ties to even;
    a number too large becomes an infinity.  [None] stands for
    [ValueError]. *)

Module Float.

Definition binary64 : Set := spec_float.

Definition prec : Z := 53.
Definition emax : Z := 1024.

(** The value [(-1)^s * m * 10^e], correctly rounded. *)
Definition of_decimal (s : bool) (m : Z) (e : Z) : binary64 :=
  match m with
  | Zpos p =>
      if (0 <=? e)%Z
      then binary_round prec emax s (p * Z.to_pos (10 ^ e)) 0
      else SFdiv prec emax (S754_finite s p 0)
                 (S754_finite false (Z.to_pos (10 ^ (- e))) 0)
  | _ => S754_zero s
  end.

Definition digit_val (c : ascii) : Z := Z.of_N (Str.code c) - 48.

Definition digits_val (l : list ascii) : Z :=
  fold_left (fun acc c => 10 * acc + digit_val c)%Z l 0%Z.

(** Non-ASCII characters before parsing: a whitespace character becomes a
    space; any other one (none below 256 is a decimal digit) becomes a
    question mark and ends the string. *)
Fixpoint to_ascii (l : list ascii) : list ascii :=
  match l with
  | [] => []
  | c :: r =>
      if N.ltb (Str.code c) 127 then c :: to_ascii r
      else if Str.isspace c then " "%char :: to_ascii r
      else ["?"%char]
  end.

(** Underscores: each must stand between two digits; they are removed. *)
Fixpoint underscores (prev : ascii) (l : list ascii)
  : option (list ascii) :=
  match l with
  | [] => if Ascii.eqb prev "_" then None else Some []
  | c :: r =>
      if Ascii.eqb c "_" then
        if Str.isdigit prev then underscores c r else None
      else if (Ascii.eqb prev "_" && negb (Str.isdigit c))%bool then None
      else option_map (cons c) (underscores c r)
  end.

Definition sign (l : list ascii) : bool * list ascii :=
  match l with
  | "-"%char :: r => (true, r)
  | "+"%char :: r => (false, r)
  | _ => (false, l)
  end.

(** [prefix_ci t l]: [l] starts with the lower-case word [t], in any
    case; the rest of [l]. *)
Fixpoint prefix_ci (t l : list ascii) : option (list ascii) :=
  match t, l with
  | [], _ => Some l
  | a :: t', c :: l' =>
      if Ascii.eqb (Str.tolower c) a then prefix_ci t' l' else None
  | _ :: _, [] => None
  end.

(** A decimal number at the start of [l]: its value and what follows it.
    An exponent mark without digits is not part of the number. *)
Definition number (l : list ascii) : option (binary64 * list ascii) :=
  let (s, l1) := sign l in
  let (ip, l2) := Str.span Str.isdigit l1 in
  let (fp, l3) :=
    match l2 with
    | "."%char :: r => Str.span Str.isdigit r
    | _ => ([], l2)
    end in
  match ip ++ fp with
  | [] => None
  | ds =>
      let (e, l4) :=
        match l3 with
        | c :: r =>
            if Ascii.eqb (Str.tolower c) "e" then
              let (es, r1) := sign r in
              let (ed, r2) := Str.span Str.isdigit r1 in
              match ed with
              | [] => (0%Z, l3)
              | _ => ((if es then - digits_val ed else digits_val ed)%Z, r2)
              end
            else (0%Z, l3)
        | [] => (0%Z, l3)
        end in
      Some (of_decimal s (digits_val ds) (e - Z.of_nat (List.length fp)), l4)
  end.

Definition inf_or_nan (l : list ascii) : option (binary64 * list ascii) :=
  let (s, l1) := sign l in
  match prefix_ci (list_ascii_of_string "inf") l1 with
  | Some r =>
      match prefix_ci (list_ascii_of_string "inity") r with
      | Some r' => Some (S754_infinity s, r')
      | None => Some (S754_infinity s, r)
      end
  | None =>
      match prefix_ci (list_ascii_of_string "nan") l1 with
      | Some r => Some (S754_nan, r)
      | None => None
      end
  end.

Definition strtod (l : list ascii) : option (binary64 * list ascii) :=
  match number l with
  | Some r => Some r
  | None => inf_or_nan l
  end.

Definition has_underscore (l : list ascii) : bool :=
  existsb (fun c => Ascii.eqb c "_") l.

(** [float(s)] *)
Definition float (s : string) : option binary64 :=
  let l := to_ascii (list_ascii_of_string s) in
  match (if has_underscore l then underscores Ascii.zero l else Some l) with
  | None => None
  | Some l' =>
      match Str.strip_with Str.isspace_c l' with
      | [] => None
      | body =>
          match strtod body with
          | Some (x, []) => Some x
          | _ => None
          end
      end
  end.

End Float.

Import Float.

(** ** Exceptions *)

(** The builtin exception classes an indexing or a file access of the script
    can raise, and classes a program defines itself, by name.  The script
    defines none. *)
Inductive exn : Set :=
| IndexError
| KeyError
| FileNotFoundError
| UserDefined (cls : string).

(** The class the specification names for a malformed table. *)
Definition InputShapeError : exn := UserDefined "InputShapeError".

Definition result (A : Type) : Type := exn + A.

Definition ret {A : Type} (a : A) : result A := inr a.
Definition raise {A : Type} (e : exn) : result A := inl e.

Definition bind {A B : Type} (m : result A) (k : A -> result B) : result B :=
  match m with
  | inl e => inl e
  | inr a => k a
  end.

Notation "x <- m ;; k" := (bind m (fun x => k))
  (at level 61, m at next level, right associativity).

(** ** Dictionaries

    Keys are strings.  [d[k] = v] replaces the value of a key that is
    present, where it stands, and appends a new key at the end. *)

Definition dict (V : Type) : Type := list (string * V).

Section Dict.
Context {V : Type}.

(** [d[k]]; [None] is [KeyError]. *)
Fixpoint getitem (k : string) (d : dict V) : option V :=
  match d with
  | [] => None
  | (k', v) :: r => if String.eqb k k' then Some v else getitem k r
  end.

(** [d[k] = v] *)
Fixpoint setitem (k : string) (v : V) (d : dict V) : dict V :=
  match d with
  | [] => [(k, v)]
  | (k', v') :: r =>
      if String.eqb k k' then (k, v) :: r else (k', v') :: setitem k v r
  end.

(** [list(d.keys())] *)
Definition keys (d : dict V) : list string := map fst d.

End Dict.

(** ** The script *)

Definition row : Set := list string.
Definition table : Set := list row.

(** The output structure: [{"nodes": headers, "correlations": correlations}]. *)
Record document : Type := {
  nodes : list string;
  correlations : dict (dict binary64)
}.

(** [l[0]] *)
Definition first {A : Type} (l : list A) : result A :=
  match l with
  | [] => raise IndexError
  | x :: _ => ret x
  end.

(** [l[j]] for [j >= 0] *)
Definition index_at {A : Type} (l : list A) (j : nat) : result A :=
  match nth_error l j with
  | None => raise IndexError
  | Some x => ret x
  end.

(** Body of the inner loop, lines 23 to 32: one cell [value] at position [j]
    of the row of index [i] named [node_name]. *)
Definition cell_step (headers : list string) (i : nat) (node_name : string)
    (j : nat) (value : string) (correlations : dict (dict binary64))
  : result (dict (dict binary64)) :=
  if (Str.truthy value && Str.truthy (Str.strip value))%bool then
    match float value with
    | Some corr_value =>
        other_node <- index_at headers j ;;
        if (i <? j)%nat then  (* j > i *)
          match getitem node_name correlations with
          | None => raise KeyError
          | Some inner =>
              ret (setitem node_name
                           (setitem other_node corr_value inner)
                           correlations)
          end
        else ret correlations
    | None => ret correlations
    end
  else ret correlations.

(** The inner loop, [for j, value in enumerate(row[1:], start=0)], from
    position [j] on. *)
Fixpoint inner_loop (headers : list string) (i : nat) (node_name : string)
    (j : nat) (cells : list string) (correlations : dict (dict binary64))
  : result (dict (dict binary64)) :=
  match cells with
  | [] => ret correlations
  | value :: rest =>
      c <- cell_step headers i node_name j value correlations ;;
      inner_loop headers i node_name (S j) rest c
  end.

(** Body of the outer loop, lines 17 to 32. *)
Definition row_step (headers : list string) (i : nat) (r : row)
    (correlations : dict (dict binary64)) : result (dict (dict binary64)) :=
  node_name <- first r ;;
  inner_loop headers i node_name 0 (tl r) (setitem node_name [] correlations).

(** The outer loop, [for i, row in enumerate(rows[1:], start=0)], from
    index [i] on. *)
Fixpoint outer_loop (headers : list string) (i : nat) (rows : list row)
    (correlations : dict (dict binary64)) : result (dict (dict binary64)) :=
  match rows with
  | [] => ret correlations
  | r :: rest =>
      c <- row_step headers i r correlations ;;
      outer_loop headers (S i) rest c
  end.

(** Lines 11 to 38: from the rows read to the output structure. *)
Definition reduce (rows : table) : result document :=
  row0 <- first rows ;;
  let headers := tl row0 in
  correlations <- outer_loop headers 0 (tl rows) [] ;;
  ret {| nodes := headers; correlations := correlations |}.

(** The two files of the script, and what it prints.  [correl_csv] holds the
    rows [csv.reader] yields, [correl_data_json] the structure [json.dump]
    writes; [None] is a file that does not exist. *)
Record files : Type := {
  correl_csv : option table;
  correl_data_json : option document
}.

(** The whole script: the files it leaves and either the exception that
    ends it or the lines it prints. *)
Definition script (fs : files) : files * result (list string) :=
  match correl_csv fs with
  | None => (fs, raise FileNotFoundError)
  | Some rows =>
      match reduce rows with
      | inl e => (fs, raise e)
      | inr output =>
          ({| correl_csv := correl_csv fs; correl_data_json := Some output |},
           ret [("Converted " ++ Str.of_nat (List.length (nodes output))
                   ++ " nodes to correl_data.json")%string;
                ("Nodes: " ++ Str.join ", " (nodes output))%string])
      end
  end.

(** ** Vocabulary of the properties *)

(** [l.index(x)]: position of the first occurrence; [None] when absent. *)
Fixpoint index (x : string) (l : list string) : option nat :=
  match l with
  | [] => None
  | y :: r => if String.eqb x y then Some 0 else option_map S (index x r)
  end.

(** A retained correlation entry: [correlations[a][b] == v]. *)
Definition entry (d : document) (a b : string) (v : binary64) : Prop :=
  exists inner,
    getitem a (correlations d) = Some inner /\ getitem b inner = Some v.

(** A cell made of whitespace only (the empty cell included). *)
Definition blank (value : string) : Prop :=
  Forall (fun c => Str.isspace c = true) (list_ascii_of_string value).

(** Every character of [l] satisfies [p]. *)
Definition holds (p : ascii -> bool) (l : list ascii) : Prop :=
  Forall (fun c => p c = true) l.

(** The whitespace characters that [float] leaves as they are. *)
Definition low_space (c : ascii) : bool :=
  (Str.isspace c && N.ltb (Str.code c) 127)%bool.

(** Upper triangle by node index, as the specification words it. *)
Definition upper_triangle_only (d : document) : Prop :=
  (forall a b v, entry d a b v ->
     exists ia ib,
       index a (nodes d) = Some ia /\ index b (nodes d) = Some ib /\ ia < ib)
  /\ (forall a b v, entry d a b v -> a <> b)
  /\ (forall a b ia ib inner,
        index a (nodes d) = Some ia -> index b (nodes d) = Some ib ->
        ib <= ia ->
        getitem a (correlations d) = Some inner -> getitem b inner = None).

(** Every inner key is a node name. *)
Definition inner_keys_in_nodes (d : document) : Prop :=
  forall a inner b,
    getitem a (correlations d) = Some inner -> In b (keys inner) ->
    In b (nodes d).

(** Every outer key is a node name. *)
Definition outer_keys_in_nodes (d : document) : Prop :=
  forall a, In a (keys (correlations d)) -> In a (nodes d).

(** The cell at position [j] of the data row of index [i] that an entry
    keyed [(a, b)] with value [v] comes from. *)
Definition from_cell (headers : list string) (data : list row)
    (a b : string) (v : binary64) (i j : nat) : Prop :=
  exists r value,
    nth_error data i = Some r /\ first r = ret a /\
    nth_error (tl r) j = Some value /\ float value = Some v /\
    nth_error headers j = Some b /\ i < j.

(** A row without cells, or with a numeric cell beyond the header. *)
Definition misshapen (headers : list string) (r : row) : Prop :=
  r = [] \/
  exists j value v,
    nth_error (tl r) j = Some value /\ float value = Some v /\
    List.length headers <= j.

(** What one cell adds to the mapping of its row: nothing, or one item. *)
Definition cell_item (headers : list string) (i j : nat) (value : string)
  : result (option (string * binary64)) :=
  if (Str.truthy value && Str.truthy (Str.strip value))%bool then
    match float value with
    | Some corr_value =>
        other_node <- index_at headers j ;;
        if (i <? j)%nat then ret (Some (other_node, corr_value)) else ret None
    | None => ret None
    end
  else ret None.

Definition add_item (o : option (string * binary64)) (inner : dict binary64)
  : dict binary64 :=
  match o with
  | Some (b, v) => setitem b v inner
  | None => inner
  end.

(** The mapping of one row, built apart from the outer dictionary. *)
Fixpoint row_items (headers : list string) (i j : nat) (cells : list string)
    (inner : dict binary64) : result (dict binary64) :=
  match cells with
  | [] => ret inner
  | value :: rest =>
      o <- cell_item headers i j value ;;
      row_items headers i (S j) rest (add_item o inner)
  end.

(** Outer and inner keys are node names, as the specification words it. *)
Definition keys_drawn_from_nodes (d : document) : Prop :=
  outer_keys_in_nodes d /\ inner_keys_in_nodes d.

(** The shape of the output against the table it comes from, as the
    specification words it: one node per header cell but the first, the
    outer keys are the first cells of the data rows, and each data row has
    exactly one inner mapping under its first cell. *)
Definition round_trip_shape (rows : table) (d : document) : Prop :=
  Z.of_nat (List.length (nodes d))
  = (Z.of_nat (List.length (hd [] rows)) - 1)%Z
  /\ (forall a, In a (keys (correlations d)) <->
                exists r, In r (tl rows) /\ first r = ret a)
  /\ (forall r, In r (tl rows) ->
        exists a, first r = ret a /\
                  exists! inner, In (a, inner) (correlations d)).

(** ** Tables and values of the scenarios *)

(** The binary64 numbers nearest to 0.5, 0.2 and 0.9. *)
Definition d0_5 : binary64 := S754_finite false 4503599627370496 (-53).
Definition d0_2 : binary64 := S754_finite false 7205759403792794 (-55).
Definition d0_9 : binary64 := S754_finite false 8106479329266893 (-53).

(** [v] is a positive binary64 number in canonical form within half a unit
    in the last place of the fraction [p / q]. *)
Definition nearest (v : binary64) (p q : Z) : Prop :=
  match v with
  | S754_finite false m e =>
      bounded prec emax m e = true /\
      (2 * Z.abs (Zpos m * q - p * 2 ^ (- e)) <= q)%Z
  | _ => False
  end.

(** Scenario A of the specification. *)
Definition scenario_A : table :=
  [ [""; "A"; "B"; "C"];
    ["A"; ""; "0.5"; "0.2"];
    ["B"; ""; ""; "0.9"];
    ["C"; ""; ""; ""; ""] ].

Definition document_A : document :=
  {| nodes := ["A"; "B"; "C"];
     correlations :=
       [ ("A", [("B", d0_5); ("C", d0_2)]);
         ("B", [("C", d0_9)]);
         ("C", []) ] |}.

(** A row named after a node other than the one of its index. *)
Definition misnamed_table : table := [ [""; "A"; "B"]; ["B"; ""; "0.5"] ].

(** A row named after no node. *)
Definition foreign_table : table := [ [""; "A"]; ["Z"] ].

(** More data rows than nodes, with a number under the diagonal. *)
Definition tall_table : table := [ [""; "A"]; ["A"]; ["B"; ""; "0.5"] ].

(** A data row without cells, as [csv.reader] yields for an empty line. *)
Definition gap_table : table := [ [""; "A"]; [] ].

(** A header row without cells. *)
Definition headless_table : table := [ [] ].

(** Two rows of one name. *)
Definition twice_table : table :=
  [ [""; "A"; "B"]; ["A"; ""; "0.5"]; ["A"; ""; ""] ].

(** A short row and a missing numeric cell. *)
Definition ragged_table : table :=
  [ [""; "A"; "B"; "C"]; ["A"; ""; "0.5"]; ["B"]; ["C"; "n/a"; " "] ].

(** ** Vocabulary of further properties *)

(** The table is empty or holds a misshapen data row. *)
Definition ill_shaped (rows : table) : Prop :=
  rows = [] \/ exists r, In r (tl rows) /\ misshapen (tl (hd [] rows)) r.

(** The distinct elements of [l], in the order of their first occurrence. *)
Fixpoint first_occurrences (l : list string) : list string :=
  match l with
  | [] => []
  | x :: r =>
      x :: filter (fun y => negb (String.eqb y x)) (first_occurrences r)
  end.

(** The numeric cells right of the diagonal with the node of their column:
    [[(headers[j], float(value)) for j, value in enumerate(cells, j)
      if j > i]], the cells that are no numbers being left out. *)
Fixpoint upper_cells (headers : list string) (i j : nat)
    (cells : list string) : dict binary64 :=
  match cells with
  | [] => []
  | value :: rest =>
      match float value, nth_error headers j with
      | Some v, Some b =>
          if (i <? j)%nat then (b, v) :: upper_cells headers i (S j) rest
          else upper_cells headers i (S j) rest
      | _, _ => upper_cells headers i (S j) rest
      end
  end.

(** The body of the inner loop without the test of line 23. *)
Definition cell_step_unguarded (headers : list string) (i : nat)
    (node_name : string) (j : nat) (value : string)
    (correlations : dict (dict binary64)) : result (dict (dict binary64)) :=
  match float value with
  | Some corr_value =>
      other_node <- index_at headers j ;;
      if (i <? j)%nat then
        match getitem node_name correlations with
        | None => raise KeyError
        | Some inner =>
            ret (setitem node_name
                         (setitem other_node corr_value inner)
                         correlations)
        end
      else ret correlations
  | None => ret correlations
  end.

(** A cell that is no number, emptied. *)
Definition scrub (value : string) : string :=
  match float value with
  | Some _ => value
  | None => ""
  end.

(** A data row with its cells that are no numbers emptied; the name of the
    row stays. *)
Definition scrub_row (r : row) : row :=
  match r with
  | [] => []
  | node_name :: cells => node_name :: map scrub cells
  end.

(** Two rows of the same name with the same cells right of the diagonal,
    for the row index [i]. *)
Definition same_above (i : nat) (r1 r2 : row) : Prop :=
  first r1 = first r2 /\
  forall j, i < j -> nth_error (tl r1) j = nth_error (tl r2) j.

(** A table with text, numbers under the diagonal and a repeated name. *)
Definition mixed_table : table :=
  [ [""; "A"; "B"; "C"];
    ["A"; "1"; "0.5"; "NA"];
    ["B"; "0.5"; "x"; "0.9"];
    ["A"; "7"; "8"] ].

(** The same table with other cells on and under the diagonal. *)
Definition mixed_table' : table :=
  [ [""; "A"; "B"; "C"];
    ["A"; ""; "0.5"; "NA"];
    ["B"; ""; ""; "0.9"];
    ["A"; "0.2"; "0.2"; "0.9"] ].

(** ** Dictionaries: lookup after update, keys *)

Section DictFacts.
Context {V : Type}.
Implicit Types (d : dict V) (k : string) (v : V).

Lemma getitem_setitem_eq k v d : getitem k (setitem k v d) = Some v.
Proof.
  induction d as [|[k' v'] r IH]; simpl.
  - now rewrite String.eqb_refl.
  - destruct (String.eqb k k') eqn:E; simpl.
    + now rewrite String.eqb_refl.
    + now rewrite E.
Qed.

Lemma getitem_setitem_ne k k' v d :
  k <> k' -> getitem k' (setitem k v d) = getitem k' d.
Proof.
  intros N. induction d as [|[k0 v0] r IH]; simpl.
  - destruct (String.eqb_spec k' k); congruence.
  - destruct (String.eqb_spec k k0) as [->|N0]; simpl.
    + destruct (String.eqb_spec k' k0); congruence.
    + destruct (String.eqb_spec k' k0); auto.
Qed.

Lemma setitem_setitem k v w d : setitem k v (setitem k w d) = setitem k v d.
Proof.
  induction d as [|[k' v'] r IH]; simpl.
  - now rewrite String.eqb_refl.
  - destruct (String.eqb k k') eqn:E; simpl.
    + now rewrite String.eqb_refl.
    + now rewrite E, IH.
Qed.

Lemma setitem_same k v d : getitem k d = Some v -> setitem k v d = d.
Proof.
  induction d as [|[k' v'] r IH]; simpl; [discriminate|].
  destruct (String.eqb_spec k k') as [->|N]; intros H.
  - congruence.
  - now rewrite IH.
Qed.

Lemma In_keys_setitem x k v d :
  In x (keys (setitem k v d)) <-> x = k \/ In x (keys d).
Proof.
  induction d as [|[k' v'] r IH]; simpl.
  - intuition.
  - destruct (String.eqb_spec k k') as [->|N]; simpl.
    + intuition.
    + unfold keys in IH. rewrite IH. intuition.
Qed.

Lemma getitem_None k d : getitem k d = None <-> ~ In k (keys d).
Proof.
  induction d as [|[k' v'] r IH]; simpl.
  - intuition.
  - destruct (String.eqb_spec k k') as [->|N].
    + split; [discriminate | intuition].
    + unfold keys in IH. rewrite IH. intuition.
Qed.

Lemma getitem_Some_key k v d : getitem k d = Some v -> In k (keys d).
Proof.
  intros H. destruct (in_dec string_dec k (keys d)) as [|N]; auto.
  apply getitem_None in N. congruence.
Qed.

Lemma key_getitem k d : In k (keys d) -> exists v, getitem k d = Some v.
Proof.
  intros H. destruct (getitem k d) eqn:E; eauto.
  apply getitem_None in E. contradiction.
Qed.

Lemma getitem_In k v d : getitem k d = Some v -> In (k, v) d.
Proof.
  induction d as [|[k' v'] r IH]; simpl; [discriminate|].
  destruct (String.eqb_spec k k') as [->|N]; intros H.
  - left. congruence.
  - right. auto.
Qed.

Lemma In_getitem k v d : NoDup (keys d) -> In (k, v) d -> getitem k d = Some v.
Proof.
  induction d as [|[k' v'] r IH]; simpl; [contradiction|].
  intros ND [E|I]; inversion ND as [|? ? NI ND']; subst.
  - inversion E; subst. now rewrite String.eqb_refl.
  - destruct (String.eqb_spec k k') as [->|N]; auto.
    exfalso. apply NI. change (In k' (keys r)).
    apply in_map_iff. exists (k', v). auto.
Qed.

Lemma NoDup_keys_setitem k v d : NoDup (keys d) -> NoDup (keys (setitem k v d)).
Proof.
  induction d as [|[k' v'] r IH]; simpl; intros ND.
  - constructor; [intros []|constructor].
  - inversion ND as [|? ? NI ND']; subst.
    destruct (String.eqb_spec k k') as [->|N]; simpl.
    + constructor; auto.
    + constructor; auto.
      intros I. apply In_keys_setitem in I. destruct I; congruence.
Qed.

End DictFacts.


(** ** Blank cells and [float] *)

Section Blank.

Lemma dropwhile_nil p l : Str.dropwhile p l = [] <-> holds p l.
Proof.
  unfold holds. induction l as [|c r IH]; simpl.
  - split; auto.
  - destruct (p c) eqn:E.
    + rewrite IH. split; [auto | now inversion 1].
    + split; [discriminate | inversion 1; congruence].
Qed.

Lemma dropwhile_head p l c r : Str.dropwhile p l = c :: r -> p c = false.
Proof.
  induction l as [|x l IH]; simpl; [discriminate|].
  destruct (p x) eqn:E; auto. now intros [= <- _].
Qed.

Lemma dropwhile_incl p l : incl (Str.dropwhile p l) l.
Proof.
  induction l as [|x l IH]; simpl; [easy|].
  destruct (p x); [now apply incl_tl | apply incl_refl].
Qed.

Lemma strip_with_nil p l : Str.strip_with p l = [] <-> holds p l.
Proof.
  unfold Str.strip_with. split.
  - intros H. apply (f_equal (@rev ascii)) in H.
    rewrite rev_involutive in H. simpl in H.
    apply dropwhile_nil, Forall_rev in H. rewrite rev_involutive in H.
    destruct (Str.dropwhile p l) as [|c r] eqn:E.
    + now apply dropwhile_nil.
    + apply dropwhile_head in E. inversion H; congruence.
  - intros H. apply dropwhile_nil in H. now rewrite H.
Qed.

Lemma strip_with_incl p l : incl (Str.strip_with p l) l.
Proof.
  unfold Str.strip_with. intros c H.
  apply in_rev, dropwhile_incl, in_rev, dropwhile_incl in H. exact H.
Qed.

Lemma truthy_of_list l :
  Str.truthy (string_of_list_ascii l) = false <-> l = [].
Proof. destruct l; simpl; split; congruence. Qed.

(** The guard [value and value.strip()] fails on blank cells only. *)
Lemma guard_false value :
  (Str.truthy value && Str.truthy (Str.strip value))%bool = false
  <-> blank value.
Proof.
  unfold blank, Str.strip. split.
  - intros H. apply andb_false_iff in H. destruct H as [H|H].
    + destruct value; [constructor | discriminate].
    + now apply truthy_of_list, strip_with_nil in H.
  - intros H. apply andb_false_iff. right.
    now apply truthy_of_list, strip_with_nil.
Qed.

Lemma guard_true value :
  ~ blank value ->
  (Str.truthy value && Str.truthy (Str.strip value))%bool = true.
Proof.
  intros N. destruct (_ && _)%bool eqn:E; auto.
  now apply guard_false in E.
Qed.

Lemma to_ascii_blank l : holds Str.isspace l -> holds low_space (to_ascii l).
Proof.
  unfold holds. induction 1 as [|c r Hc _ IH]; simpl; [constructor|].
  destruct (N.ltb (Str.code c) 127) eqn:E.
  - constructor; auto. unfold low_space. now rewrite Hc, E.
  - rewrite Hc. constructor; auto.
Qed.

Lemma low_space_no_underscore l :
  holds low_space l -> has_underscore l = false.
Proof.
  unfold holds, has_underscore. induction 1 as [|c r Hc _ IH]; simpl; auto.
  rewrite IH, orb_false_r.
  destruct (Ascii.eqb_spec c "_"); auto. now subst c.
Qed.

Lemma strtod_low_space c r : low_space c = true -> strtod (c :: r) = None.
Proof.
  destruct c as [[] [] [] [] [] [] [] []];
    (discriminate || (intros _; reflexivity)).
Qed.

(** A blank cell is no number. *)
Lemma float_blank value : blank value -> float value = None.
Proof.
  unfold blank, float. intros H. apply to_ascii_blank in H.
  rewrite (low_space_no_underscore _ H).
  destruct (Str.strip_with Str.isspace_c _) as [|c r] eqn:E; auto.
  assert (Hc : low_space c = true).
  { unfold holds in H. rewrite Forall_forall in H. apply H.
    apply (strip_with_incl Str.isspace_c). rewrite E. now left. }
  now rewrite (strtod_low_space c r Hc).
Qed.

(** A cell that parses passes the guard. *)
Lemma float_guard value v :
  float value = Some v ->
  (Str.truthy value && Str.truthy (Str.strip value))%bool = true.
Proof.
  intros H. apply guard_true. intros B. apply float_blank in B. congruence.
Qed.

End Blank.

(** ** The inner loop builds the mapping of its row *)

Ltac case_result m :=
  let x := fresh "x" in
  let E := fresh "E" in
  destruct m as [x|x] eqn:E; simpl; try discriminate.

Lemma bind_inr {A B} (m : result A) (k : A -> result B) b :
  bind m k = inr b -> exists a, m = inr a /\ k a = inr b.
Proof. destruct m; simpl; [discriminate | eauto]. Qed.

Lemma cell_step_item headers i name j value c inner :
  getitem name c = Some inner ->
  cell_step headers i name j value c =
  (o <- cell_item headers i j value ;;
   ret (setitem name (add_item o inner) c)).
Proof.
  intros G. unfold cell_step, cell_item.
  assert (S : setitem name inner c = c) by now apply setitem_same.
  destruct (_ && _)%bool; simpl; [|now rewrite S].
  destruct (float value); simpl; [|now rewrite S].
  unfold index_at. destruct (nth_error headers j); simpl; auto.
  destruct (i <? j)%nat; simpl; [now rewrite G | now rewrite S].
Qed.

Lemma inner_loop_items headers i name cells : forall j c inner,
  getitem name c = Some inner ->
  inner_loop headers i name j cells c =
  (inner' <- row_items headers i j cells inner ;;
   ret (setitem name inner' c)).
Proof.
  induction cells as [|value rest IH]; intros j c inner G; simpl.
  - now rewrite setitem_same.
  - rewrite (cell_step_item _ _ _ _ _ _ _ G).
    case_result (cell_item headers i j value); auto.
    rewrite (IH _ _ (add_item x inner)) by apply getitem_setitem_eq.
    case_result (row_items headers i (S j) rest (add_item x inner)); auto.
    now rewrite setitem_setitem.
Qed.

Lemma row_step_items headers i r c :
  row_step headers i r c =
  (name <- first r ;;
   inner <- row_items headers i 0 (tl r) [] ;;
   ret (setitem name inner c)).
Proof.
  unfold row_step. destruct r as [|name cells]; simpl; auto.
  rewrite (inner_loop_items _ _ _ _ _ _ []) by apply getitem_setitem_eq.
  case_result (row_items headers i 0 cells []); auto.
  now rewrite setitem_setitem.
Qed.

(** Where the items of a row come from. *)
Lemma row_items_origin headers i cells : forall j0 inner inner' b v,
  row_items headers i j0 cells inner = inr inner' ->
  getitem b inner' = Some v ->
  getitem b inner = Some v \/
  exists j value,
    nth_error cells j = Some value /\ float value = Some v /\
    nth_error headers (j0 + j) = Some b /\ i < j0 + j.
Proof.
  induction cells as [|value rest IH]; intros j0 inner inner' b v R G;
    simpl in R.
  - left. unfold ret in R. congruence.
  - apply bind_inr in R. destruct R as (o & C & R).
    destruct (IH _ _ _ _ _ R G) as [G'|(j & value' & N & F & H & L)].
    + destruct o as [[b' v']|]; simpl in G'; auto.
      destruct (string_dec b' b) as [->|D].
      * rewrite getitem_setitem_eq in G'. injection G' as ->.
        right. exists 0, value. rewrite Nat.add_0_r. unfold cell_item in C.
        destruct (_ && _)%bool; [|discriminate].
        destruct (float value) as [w|] eqn:F; [|discriminate].
        unfold index_at in C. destruct (nth_error headers j0) as [h|] eqn:H;
          simpl in C; [|discriminate].
        destruct (i <? j0)%nat eqn:L; [|discriminate].
        apply Nat.ltb_lt in L. injection C as -> ->. auto.
      * rewrite getitem_setitem_ne in G' by auto. auto.
    + right. exists (S j), value'. rewrite Nat.add_succ_r. simpl. auto.
Qed.

(** A row no wider than the header is processed to its end. *)
Lemma row_items_total headers i cells : forall j0 inner,
  j0 + List.length cells <= List.length headers ->
  exists inner', row_items headers i j0 cells inner = inr inner'.
Proof.
  induction cells as [|value rest IH]; intros j0 inner L; simpl in *; eauto.
  assert (C : exists o, cell_item headers i j0 value = inr o).
  { unfold cell_item. destruct (_ && _)%bool; eauto.
    destruct (float value); eauto. unfold index_at.
    destruct (nth_error headers j0) eqn:H; simpl.
    - destruct (i <? j0)%nat; eauto.
    - apply nth_error_None in H. lia. }
  destruct C as [o ->]. simpl. apply IH. lia.
Qed.

(** Only an index out of range ends the inner loop early. *)
Lemma cell_item_exn headers i j value e :
  cell_item headers i j value = inl e -> e = IndexError.
Proof.
  unfold cell_item. destruct (_ && _)%bool; [|discriminate].
  destruct (float value); [|discriminate]. unfold index_at.
  destruct (nth_error headers j); simpl.
  - destruct (i <? j)%nat; discriminate.
  - now intros [= <-].
Qed.

Lemma row_items_exn headers i cells : forall j0 inner e,
  row_items headers i j0 cells inner = inl e -> e = IndexError.
Proof.
  induction cells as [|value rest IH]; intros j0 inner e R; simpl in R.
  - discriminate.
  - destruct (cell_item headers i j0 value) eqn:C; simpl in R.
    + injection R as <-. eapply cell_item_exn; eauto.
    + eapply IH; eauto.
Qed.

(** A numeric cell beyond the header ends the inner loop, whatever its
    side of the diagonal. *)
Lemma row_items_beyond headers i cells : forall j0 inner j value v,
  nth_error cells j = Some value -> float value = Some v ->
  List.length headers <= j0 + j ->
  row_items headers i j0 cells inner = inl IndexError.
Proof.
  induction cells as [|c rest IH]; intros j0 inner j value v N F L.
  - destruct j; discriminate.
  - simpl. destruct (cell_item headers i j0 c) as [e|o] eqn:C; simpl.
    + f_equal. eapply cell_item_exn; eauto.
    + destruct j as [|j]; simpl in N.
      * injection N as ->. exfalso. unfold cell_item in C.
        rewrite (float_guard _ _ F), F in C. unfold index_at in C.
        rewrite Nat.add_0_r in L. apply nth_error_None in L.
        rewrite L in C. discriminate.
      * eapply IH; eauto. lia.
Qed.

(** ** The outer loop *)

Lemma row_step_inr headers i r c c' :
  row_step headers i r c = inr c' ->
  exists name inner,
    first r = ret name /\ row_items headers i 0 (tl r) [] = inr inner /\
    c' = setitem name inner c.
Proof.
  rewrite row_step_items. intros H.
  apply bind_inr in H. destruct H as (name & F & H).
  apply bind_inr in H. destruct H as (inner & R & H).
  exists name, inner. unfold ret in H. intuition congruence.
Qed.

Lemma row_step_exn headers i r c e :
  row_step headers i r c = inl e -> e = IndexError.
Proof.
  rewrite row_step_items. destruct r as [|name cells]; simpl.
  - now intros [= <-].
  - destruct (row_items headers i 0 cells []) eqn:R; simpl; [|discriminate].
    intros [= <-]. eapply row_items_exn; eauto.
Qed.

Lemma outer_loop_exn headers rows : forall i c e,
  outer_loop headers i rows c = inl e -> e = IndexError.
Proof.
  induction rows as [|r rest IH]; intros i c e H; simpl in H.
  - discriminate.
  - destruct (row_step headers i r c) eqn:R; simpl in H.
    + injection H as <-. eapply row_step_exn; eauto.
    + eapply IH; eauto.
Qed.

Lemma outer_loop_keys headers rows : forall i c c',
  outer_loop headers i rows c = inr c' ->
  forall k, In k (keys c') <->
            In k (keys c) \/ exists r, In r rows /\ first r = ret k.
Proof.
  induction rows as [|r rest IH]; intros i c c' H k; simpl in H.
  - injection H as <-. split; auto. intros [|(r & [] & _)]; auto.
  - apply bind_inr in H. destruct H as (c1 & R & H).
    apply row_step_inr in R. destruct R as (name & inner & F & _ & ->).
    rewrite (IH _ _ _ H k), In_keys_setitem. split.
    + intros [[->|I]|(r' & I & F')]; auto.
      * right. exists r. simpl. auto.
      * right. exists r'. simpl. auto.
    + intros [I|(r' & [<-|I] & F')]; auto.
      * left. left. rewrite F in F'. now injection F'.
      * right. eauto.
Qed.

Lemma outer_loop_NoDup headers rows : forall i c c',
  outer_loop headers i rows c = inr c' -> NoDup (keys c) -> NoDup (keys c').
Proof.
  induction rows as [|r rest IH]; intros i c c' H ND; simpl in H.
  - now injection H as <-.
  - apply bind_inr in H. destruct H as (c1 & R & H).
    apply row_step_inr in R. destruct R as (name & inner & _ & _ & ->).
    eapply IH; eauto. now apply NoDup_keys_setitem.
Qed.

(** Rows of another name leave the mapping of [a] as it is. *)
Lemma outer_loop_other headers a rows : forall i c c',
  outer_loop headers i rows c = inr c' ->
  (forall r, In r rows -> first r <> ret a) ->
  getitem a c' = getitem a c.
Proof.
  induction rows as [|r rest IH]; intros i c c' H N; simpl in H.
  - now injection H as <-.
  - apply bind_inr in H. destruct H as (c1 & R & H).
    apply row_step_inr in R. destruct R as (name & inner & F & _ & ->).
    rewrite (IH _ _ _ H) by (intros; apply N; now right).
    apply getitem_setitem_ne. intros ->. apply (N r); simpl; auto.
Qed.

(** The mapping of [a] is the one of the last row named [a]. *)
Lemma outer_loop_last headers a r post pre : forall i c c',
  outer_loop headers i (pre ++ r :: post) c = inr c' ->
  first r = ret a ->
  (forall r', In r' post -> first r' <> ret a) ->
  exists inner,
    getitem a c' = Some inner /\
    row_items headers (i + List.length pre) 0 (tl r) [] = inr inner.
Proof.
  induction pre as [|x pre IH]; intros i c c' H F N; simpl in H.
  - apply bind_inr in H. destruct H as (c1 & R & H).
    apply row_step_inr in R. destruct R as (name & inner & F' & R & ->).
    rewrite F in F'. injection F' as <-.
    exists inner. rewrite (outer_loop_other _ _ _ _ _ _ H N).
    simpl. rewrite Nat.add_0_r. split; auto. apply getitem_setitem_eq.
  - apply bind_inr in H. destruct H as (c1 & _ & H).
    destruct (IH _ _ _ H F N) as (inner & G & R).
    exists inner. simpl. rewrite Nat.add_succ_r. auto.
Qed.

Lemma last_named a (rows : list row) :
  (exists r, In r rows /\ first r = ret a) ->
  exists pre r post,
    rows = pre ++ r :: post /\ first r = ret a /\
    (forall r', In r' post -> first r' <> ret a).
Proof.
  induction rows as [|x rest IH] using rev_ind; intros (r & I & F).
  - destruct I.
  - assert (D : first x = ret a \/ first x <> ret a).
    { destruct x as [|h t]; simpl; [right; discriminate|].
      destruct (string_dec h a) as [->|N]; [now left|].
      right. unfold ret. congruence. }
    destruct D as [Y|N].
    + exists rest, x, []. intuition.
    + apply in_app_iff in I. destruct I as [I|[<-|[]]]; [|contradiction].
      destruct IH as (pre & r' & post & -> & F' & L); eauto.
      exists pre, r', (post ++ [x]). rewrite <- app_assoc. simpl.
      repeat split; auto.
      intros r'' I'. apply in_app_iff in I'.
      destruct I' as [I'|[<-|[]]]; auto.
Qed.

Lemma outer_loop_total headers rows : forall i c,
  (forall r, In r rows ->
             r <> [] /\ List.length (tl r) <= List.length headers) ->
  exists c', outer_loop headers i rows c = inr c'.
Proof.
  induction rows as [|r rest IH]; intros i c H; simpl; eauto.
  destruct (H r (or_introl eq_refl)) as [NE L].
  rewrite row_step_items. destruct r as [|name cells]; [easy|]. simpl in *.
  destruct (row_items_total headers i cells 0 [] L) as [inner ->]. simpl.
  apply IH. intros; apply H; now right.
Qed.

(** A row without cells, or with a numeric cell beyond the header, makes
    the loop fail. *)
Lemma outer_loop_misshapen headers rows : forall i c,
  (exists r, In r rows /\ misshapen headers r) ->
  outer_loop headers i rows c = inl IndexError.
Proof.
  induction rows as [|r rest IH]; intros i c (r' & I & M).
  - destruct I.
  - simpl. destruct (row_step headers i r c) as [e|c1] eqn:R; simpl.
    + f_equal. eapply row_step_exn; eauto.
    + destruct I as [<-|I]; [|apply IH; eauto].
      exfalso. rewrite row_step_items in R.
      destruct M as [->|(j & value & v & N & F & L)]; [discriminate|].
      destruct r as [|name cells]; [discriminate|]. simpl in *.
      rewrite (row_items_beyond headers i cells 0 [] j value v) in R; auto.
      discriminate.
Qed.

(** Empty cells at the end of a row change nothing. *)
Lemma row_items_pad headers i k cells : forall j inner,
  row_items headers i j (cells ++ repeat "" k) inner
  = row_items headers i j cells inner.
Proof.
  induction cells as [|value rest IH]; intros j inner; simpl.
  - revert j. induction k as [|k IHk]; intros j; simpl; auto.
  - destruct (cell_item headers i j value); simpl; auto.
Qed.

Lemma row_step_pad headers i k r c :
  r <> [] -> row_step headers i (r ++ repeat "" k) c = row_step headers i r c.
Proof.
  intros NE. rewrite !row_step_items. destruct r as [|name cells]; [easy|].
  simpl. now rewrite row_items_pad.
Qed.

Lemma outer_loop_pad headers k r post pre : forall i c,
  r <> [] ->
  outer_loop headers i (pre ++ (r ++ repeat "" k) :: post) c
  = outer_loop headers i (pre ++ r :: post) c.
Proof.
  induction pre as [|x pre IH]; intros i c NE; simpl.
  - now rewrite row_step_pad.
  - destruct (row_step headers i x c); simpl; auto.
Qed.

(** ** The reduction as a whole *)

Lemma reduce_inr rows doc :
  reduce rows = inr doc ->
  exists hdr data,
    rows = hdr :: data /\ nodes doc = tl hdr /\
    outer_loop (tl hdr) 0 data [] = inr (correlations doc).
Proof.
  unfold reduce. destruct rows as [|hdr data]; simpl; [discriminate|].
  destruct (outer_loop (tl hdr) 0 data []) eqn:O; simpl; [discriminate|].
  intros [= <-]. exists hdr, data. auto.
Qed.

Lemma reduce_exn rows e : reduce rows = inl e -> e = IndexError.
Proof.
  unfold reduce. destruct rows as [|hdr data]; simpl.
  - now intros [= <-].
  - destruct (outer_loop (tl hdr) 0 data []) eqn:O; simpl; [|discriminate].
    intros [= <-]. eapply outer_loop_exn; eauto.
Qed.

Lemma reduce_NoDup rows doc :
  reduce rows = inr doc -> NoDup (keys (correlations doc)).
Proof.
  intros H. apply reduce_inr in H. destruct H as (hdr & data & _ & _ & O).
  eapply outer_loop_NoDup; eauto. constructor.
Qed.

(** Every retained entry comes from a numeric cell above the diagonal, in
    the last row of its name. *)
Lemma reduce_origin hdr data doc a b v :
  reduce (hdr :: data) = inr doc -> entry doc a b v ->
  exists i j, from_cell (tl hdr) data a b v i j.
Proof.
  intros H (inner & Ga & Gb).
  apply reduce_inr in H. destruct H as (hdr' & data' & [= <- <-] & _ & O).
  assert (K : exists r, In r data /\ first r = ret a).
  { apply getitem_Some_key in Ga.
    apply (outer_loop_keys _ _ _ _ _ O) in Ga. destruct Ga as [[]|]; auto. }
  apply last_named in K. destruct K as (pre & r & post & -> & F & L).
  destruct (outer_loop_last _ _ _ _ _ _ _ _ O F L) as (inner' & Ga' & R).
  rewrite Ga in Ga'. injection Ga' as <-. simpl in R.
  destruct (row_items_origin _ _ _ _ _ _ _ _ R Gb)
    as [G|(j & value & N & Fl & Hd & Lt)]; [discriminate|].
  exists (List.length pre), j, r, value. simpl in *.
  rewrite nth_error_app2, Nat.sub_diag by lia. simpl.
  repeat split; assumption.
Qed.

(** ** Examples *)

Example float_of_decimals :
  float "0.73" = Some (S754_finite false 6575255455960924 (-53)) /\
  float "-1.2e-3" = Some (S754_finite true 5534023222112865 (-62)) /\
  float " 1_0. " = Some (S754_finite false 5629499534213120 (-49)) /\
  float "1e400" = Some (S754_infinity false) /\
  float "-Infinity" = Some (S754_infinity true) /\
  float "n/a" = None /\ float "NA" = None /\ float "1e" = None /\
  float "" = None /\ float "1 2" = None.
Proof. repeat split; vm_compute; reflexivity. Qed.

(** Scenario B: a number under the diagonal is dropped. *)
Example number_under_the_diagonal :
  reduce [[""; "A"; "B"]; ["A"; ""; "0.5"]; ["B"; "0.5"; ""]]
  = ret {| nodes := ["A"; "B"];
           correlations := [("A", [("B", d0_5)]); ("B", [])] |}.
Proof. vm_compute. reflexivity. Qed.

(** Scenario C: a cell that is no number is skipped, the others of its
    row are recorded. *)
Example text_above_the_diagonal :
  reduce [[""; "A"; "B"; "C"]; ["A"; ""; "NA"; "0.2"]]
  = ret {| nodes := ["A"; "B"; "C"];
           correlations := [("A", [("C", d0_2)])] |}.
Proof. vm_compute. reflexivity. Qed.

(** Two rows of one name: the key keeps its place, the later row's
    mapping replaces the earlier one. *)
Example rows_of_one_name :
  reduce twice_table
  = ret {| nodes := ["A"; "B"]; correlations := [("A", [])] |}.
Proof. vm_compute. reflexivity. Qed.

(** ** Positions in the node list *)

Lemma index_nth x l : forall i, index x l = Some i -> nth_error l i = Some x.
Proof.
  induction l as [|y r IH]; simpl; intros i H; [discriminate|].
  destruct (String.eqb_spec x y) as [->|N].
  - now injection H as <-.
  - destruct (index x r) as [k|]; [|discriminate].
    injection H as <-. simpl. auto.
Qed.

Lemma nth_index x l : forall i,
  NoDup l -> nth_error l i = Some x -> index x l = Some i.
Proof.
  induction l as [|y r IH]; intros i ND H.
  - destruct i; discriminate.
  - inversion ND as [|? ? NI ND']; subst. simpl.
    destruct i as [|i]; simpl in H.
    + injection H as ->. now rewrite String.eqb_refl.
    + destruct (String.eqb_spec x y) as [->|N].
      * exfalso. apply NI. eapply nth_error_In; eauto.
      * now rewrite (IH i).
Qed.

(** ** The properties *)

(** C1. Scenario A: for the table with header [,A,B,C] and the rows
    [A,,0.5,0.2], [B,,,0.9] and [C,,,,], the reduction returns the nodes
    [A, B, C] and the correlations [{A: {B: 0.5, C: 0.2}, B: {C: 0.9},
    C: {}}], the three values being the binary64 numbers nearest to 1/2,
    1/5 and 9/10; the script writes that document and prints its two
    lines. *)
Theorem scenario_A_document :
  reduce scenario_A = ret document_A /\
  script {| correl_csv := Some scenario_A; correl_data_json := None |}
  = ({| correl_csv := Some scenario_A; correl_data_json := Some document_A |},
     ret ["Converted 3 nodes to correl_data.json"; "Nodes: A, B, C"]) /\
  nearest d0_5 1 2 /\ nearest d0_2 1 5 /\ nearest d0_9 9 10.
Proof.
  split; [vm_compute; reflexivity|]. split; [vm_compute; reflexivity|].
  repeat split; try (vm_compute; reflexivity);
    vm_compute; discriminate.
Qed.

(** C2, as the specification states it, fails on a table whose row is named
    after another node than the one of its index: the entry [(B, B)] is
    retained. *)
Lemma misnamed_row_keeps_diagonal :
  exists doc,
    reduce misnamed_table = ret doc /\ entry doc "B" "B" d0_5 /\
    ~ upper_triangle_only doc.
Proof.
  eexists. split; [vm_compute; reflexivity|].
  assert (E : entry {| nodes := ["A"; "B"];
                       correlations := [("B", [("B", d0_5)])] |}
                    "B" "B" d0_5).
  { exists [("B", d0_5)]. split; reflexivity. }
  split; [exact E|].
  intros (_ & H & _). now apply (H _ _ _ E).
Qed.

(** C2, amended.  When the node names are pairwise distinct and the first
    cell of every data row whose index is below the number of nodes is the
    node name at that index, every retained entry [(a, b)] has
    [index(b, nodes) > index(a, nodes)], none has [a == b], and no entry
    exists under [(a, b)] when [index(b, nodes) <= index(a, nodes)]. *)
Theorem upper_triangle_of_aligned_table hdr data doc :
  reduce (hdr :: data) = ret doc ->
  NoDup (tl hdr) ->
  (forall i r a,
      nth_error data i = Some r -> first r = ret a ->
      i < List.length (tl hdr) -> nth_error (tl hdr) i = Some a) ->
  upper_triangle_only doc.
Proof.
  intros H ND AL.
  assert (Nd : nodes doc = tl hdr).
  { apply reduce_inr in H. destruct H as (? & ? & [= <- <-] & ? & _). auto. }
  assert (P : forall a b v, entry doc a b v ->
                exists ia ib, index a (nodes doc) = Some ia /\
                              index b (nodes doc) = Some ib /\ ia < ib).
  { intros a b v E.
    destruct (reduce_origin _ _ _ _ _ _ H E)
      as (i & j & r & value & N & F & _ & _ & Hb & L).
    assert (Lj : j < List.length (tl hdr))
      by (apply nth_error_Some; congruence).
    exists i, j. rewrite Nd. repeat split; auto.
    - apply nth_index; auto. apply (AL i r a); auto. lia.
    - apply nth_index; auto. }
  split; [exact P|]. split.
  - intros a b v E ->. destruct (P _ _ _ E) as (ia & ib & Ia & Ib & L).
    rewrite Ia in Ib. injection Ib as ->. lia.
  - intros a b ia ib inner Ia Ib L G.
    destruct (getitem b inner) as [v|] eqn:Gb; auto.
    destruct (P a b v) as (ia' & ib' & Ia' & Ib' & L').
    { exists inner. auto. }
    rewrite Ia in Ia'. rewrite Ib in Ib'.
    injection Ia' as <-. injection Ib' as <-. lia.
Qed.

Lemma upper_triangle_of_scenario_A : upper_triangle_only document_A.
Proof.
  apply (upper_triangle_of_aligned_table (hd [] scenario_A) (tl scenario_A)).
  - vm_compute. reflexivity.
  - simpl. repeat constructor; simpl; intuition discriminate.
  - intros i r a N F L. simpl in L.
    destruct i as [|[|[|i]]]; simpl in *; try lia;
      injection N as <-; injection F as <-; reflexivity.
Defined.

(** C3, as the specification states it, fails on a table with a row named
    after no node: the outer key [Z] is not in [nodes]. *)
Lemma foreign_row_name_is_a_key :
  exists doc,
    reduce foreign_table = ret doc /\
    In "Z" (keys (correlations doc)) /\ ~ In "Z" (nodes doc) /\
    ~ keys_drawn_from_nodes doc.
Proof.
  eexists. split; [vm_compute; reflexivity|]. simpl.
  assert (N : ~ In "Z" ["A"]) by (simpl; intuition discriminate).
  repeat split; auto.
  intros [O _]. apply N, (O "Z"). simpl. auto.
Qed.

(** C3, amended.  Every inner key of every inner mapping is an element of
    [nodes]; every outer key is the first cell of a data row, hence an
    element of [nodes] when the first cell of every data row is one. *)
Theorem keys_of_the_document rows doc :
  reduce rows = ret doc ->
  inner_keys_in_nodes doc /\
  (forall a, In a (keys (correlations doc)) ->
             exists r, In r (tl rows) /\ first r = ret a) /\
  ((forall r a, In r (tl rows) -> first r = ret a -> In a (nodes doc)) ->
   keys_drawn_from_nodes doc).
Proof.
  intros H.
  destruct (reduce_inr _ _ H) as (hdr & data & -> & Nd & O).
  assert (I : inner_keys_in_nodes doc).
  { intros a inner b G K. apply key_getitem in K. destruct K as [v Gb].
    destruct (reduce_origin hdr data doc a b v H)
      as (i & j & r & value & _ & _ & _ & _ & Hb & _).
    { exists inner. auto. }
    rewrite Nd. eapply nth_error_In; eauto. }
  assert (K : forall a, In a (keys (correlations doc)) ->
                        exists r, In r data /\ first r = ret a).
  { intros a Ia. apply (outer_loop_keys _ _ _ _ _ O) in Ia.
    destruct Ia as [[]|]; auto. }
  simpl. repeat split; auto.
  intros a Ia. destruct (K a Ia) as (r & Ir & F). eauto.
Qed.

Lemma keys_of_scenario_A : keys_drawn_from_nodes document_A.
Proof.
  apply (keys_of_the_document scenario_A document_A).
  - vm_compute. reflexivity.
  - simpl. intros r a [<-|[<-|[<-|[]]]] [= <-]; simpl; auto.
Defined.

(** C4, as the specification states it, fails for a cell beyond the header:
    [headers[j]] is read before [j > i] is tested, so a number at position
    [j <= i] with [j] out of the header's range raises [IndexError]. *)
Lemma lower_cell_beyond_header_raises :
  float "0.5" = Some d0_5 /\ 1 <= 1 /\ ~ 1 < List.length ["A"] /\
  cell_step ["A"] 1 "B" 1 "0.5" [("A", []); ("B", [])] = raise IndexError /\
  reduce tall_table = raise IndexError.
Proof. repeat split; try (vm_compute; reflexivity). simpl. lia. Qed.

(** C4, amended.  A cell at position [j] of the data row of index [i] whose
    content parses as a number, with [j <= i] and [j] within the bounds of
    the header list, is discarded: no error is raised and no entry is
    recorded. *)
Theorem lower_cell_is_discarded headers i node_name j value v correlations :
  float value = Some v -> j <= i -> j < List.length headers ->
  cell_step headers i node_name j value correlations = ret correlations.
Proof.
  intros F L B. unfold cell_step. rewrite (float_guard _ _ F), F.
  unfold index_at. destruct (nth_error headers j) eqn:H; simpl.
  - apply Nat.ltb_ge in L. now rewrite L.
  - apply nth_error_None in H. lia.
Qed.

Lemma lower_cell_is_discarded_at_B_A :
  cell_step ["A"; "B"; "C"] 1 "B" 0 "0.5" [("A", []); ("B", [])]
  = ret [("A", []); ("B", [])].
Proof.
  apply (lower_cell_is_discarded ["A"; "B"; "C"] 1 "B" 0 "0.5" d0_5).
  - vm_compute. reflexivity.
  - lia.
  - simpl. lia.
Defined.

(** C5.  A cell containing [n/a], the empty string or only whitespace
    leaves the correlations as they are and raises nothing; a cell that
    parses as a number, above the diagonal and within the bounds of the
    header list, puts the parsed number itself under the node of its
    column in the mapping of its row. *)
Theorem lenient_parsing headers i node_name j value correlations :
  (value = "n/a" \/ value = "" \/ blank value ->
   cell_step headers i node_name j value correlations = ret correlations)
  /\
  (forall v other_node inner,
      float value = Some v -> i < j ->
      nth_error headers j = Some other_node ->
      getitem node_name correlations = Some inner ->
      exists c,
        cell_step headers i node_name j value correlations = ret c /\
        c = setitem node_name (setitem other_node v inner) correlations /\
        entry {| nodes := headers; correlations := c |}
              node_name other_node v).
Proof.
  split.
  - intros [->|[->|B]]; try reflexivity.
    unfold cell_step. apply guard_false in B. now rewrite B.
  - intros v other_node inner F L H G. eexists. split; [|split; eauto].
    + unfold cell_step. rewrite (float_guard _ _ F), F. unfold index_at.
      rewrite H. simpl. apply Nat.ltb_lt in L. now rewrite L, G.
    + exists (setitem other_node v inner). simpl.
      split; apply getitem_setitem_eq.
Qed.

Lemma lenient_parsing_at_A_B :
  cell_step ["A"; "B"] 0 "A" 1 " " [("A", [])] = ret [("A", [])] /\
  exists c,
    cell_step ["A"; "B"] 0 "A" 1 "0.5" [("A", [])] = ret c /\
    c = [("A", [("B", d0_5)])] /\
    entry {| nodes := ["A"; "B"]; correlations := c |} "A" "B" d0_5.
Proof.
  split.
  - apply (lenient_parsing ["A"; "B"] 0 "A" 1 " " [("A", [])]).
    right. right. repeat constructor.
  - apply (proj2 (lenient_parsing ["A"; "B"] 0 "A" 1 "0.5" [("A", [])])
             d0_5 "B" []); try reflexivity.
    lia.
Defined.

(** C6, as the specification states it, fails on the name of the error:
    the script defines no [InputShapeError]; a data row without cells ends
    the run with the builtin [IndexError]. *)
Lemma empty_row_raises_IndexError :
  script {| correl_csv := Some gap_table; correl_data_json := None |}
  = ({| correl_csv := Some gap_table; correl_data_json := None |},
     raise IndexError) /\
  snd (script {| correl_csv := Some gap_table; correl_data_json := None |})
  <> raise InputShapeError.
Proof. split; [reflexivity | discriminate]. Qed.

(** C6, amended.  For every table holding a data row with zero cells, or a
    data row with a numeric cell above the diagonal whose position is out
    of the bounds of the header list, the run ends with an uncaught
    [IndexError] and leaves the files as they were: no output file is
    produced. *)
Theorem misshapen_table_fails fs hdr data :
  correl_csv fs = Some (hdr :: data) ->
  (exists i r,
      nth_error data i = Some r /\
      (r = [] \/
       exists j value v,
         nth_error (tl r) j = Some value /\ float value = Some v /\
         i < j /\ List.length (tl hdr) <= j)) ->
  script fs = (fs, raise IndexError).
Proof.
  intros C (i & r & N & M). unfold script. rewrite C.
  assert (O : outer_loop (tl hdr) 0 data [] = inl IndexError).
  { apply outer_loop_misshapen. exists r. split.
    - eapply nth_error_In; eauto.
    - destruct M as [->|(j & value & v & Nj & F & _ & L)]; [now left|].
      right. exists j, value, v. auto. }
  unfold reduce. simpl. now rewrite O.
Qed.

Lemma misshapen_table_fails_on_wide_row :
  script {| correl_csv := Some [[""; "A"]; ["A"; ""; "0.5"]];
            correl_data_json := None |}
  = ({| correl_csv := Some [[""; "A"]; ["A"; ""; "0.5"]];
        correl_data_json := None |}, raise IndexError).
Proof.
  apply (misshapen_table_fails _ [""; "A"] [["A"; ""; "0.5"]]).
  - reflexivity.
  - exists 0, ["A"; ""; "0.5"]. split; [reflexivity|]. right.
    exists 1, "0.5", d0_5.
    split; [reflexivity|]. split; [vm_compute; reflexivity|]. simpl. lia.
Defined.

(** C7.  When every data row is non-empty and has no more cells than the
    header row, the reduction completes without error; a row shorter than
    the header is processed over the cells it has: every entry of the
    output comes from a cell present in its row, and the output is the one
    of the table in which the row is filled up with empty cells. *)
Theorem ragged_rows_complete hdr data :
  (forall r, In r data -> r <> [] /\ List.length r <= List.length hdr) ->
  exists doc,
    reduce (hdr :: data) = ret doc /\
    (forall a b v, entry doc a b v ->
                   exists i j, from_cell (tl hdr) data a b v i j) /\
    (forall pre r post k,
        data = pre ++ r :: post ->
        reduce (hdr :: pre ++ (r ++ repeat "" k) :: post) = ret doc).
Proof.
  intros H.
  destruct (outer_loop_total (tl hdr) data 0 []) as [c O].
  { intros r I. destruct (H r I) as [NE L]. split; auto.
    destruct r; [easy|]. destruct hdr; simpl in *; lia. }
  exists {| nodes := tl hdr; correlations := c |}.
  assert (R : reduce (hdr :: data)
              = ret {| nodes := tl hdr; correlations := c |}).
  { unfold reduce. simpl. now rewrite O. }
  split; auto. split.
  - intros a b v E. eapply reduce_origin; eauto.
  - intros pre r post k ->. unfold reduce. simpl.
    rewrite outer_loop_pad, O; auto.
    apply H, in_elt.
Qed.

Lemma ragged_rows_complete_on_ragged_table :
  exists doc,
    reduce ragged_table = ret doc /\
    (forall a b v, entry doc a b v ->
                   exists i j,
                     from_cell (tl (hd [] ragged_table)) (tl ragged_table)
                               a b v i j) /\
    (forall pre r post k,
        tl ragged_table = pre ++ r :: post ->
        reduce (hd [] ragged_table :: pre ++ (r ++ repeat "" k) :: post)
        = ret doc).
Proof.
  apply (ragged_rows_complete (hd [] ragged_table) (tl ragged_table)).
  simpl. intros r [<-|[<-|[<-|[]]]]; split; simpl; (discriminate || lia).
Defined.

(** C8.  Running the script again on the files it left gives the same
    result and the same files, the input file is not changed, and what the
    run returns does not depend on an output file already there: two runs
    on the same table produce the same document. *)
Theorem script_twice fs :
  script (fst (script fs)) = script fs /\
  correl_csv (fst (script fs)) = correl_csv fs /\
  forall old,
    snd (script {| correl_csv := correl_csv fs; correl_data_json := old |})
    = snd (script fs) /\
    (correl_data_json
       (fst (script {| correl_csv := correl_csv fs;
                       correl_data_json := old |}))
     = correl_data_json (fst (script fs))
     \/ exists e, snd (script fs) = raise e).
Proof.
  unfold script. destruct (correl_csv fs) as [rows|] eqn:C; simpl.
  - destruct (reduce rows) as [e|doc] eqn:R; simpl; rewrite ?C, ?R; simpl.
    + repeat split; auto. right. eauto.
    + repeat split; auto.
  - rewrite C. repeat split; auto. right. eauto.
Qed.

(** C9, as the specification states it, fails on a header row without
    cells: [rows[0][1:]] is then empty, of length 0 and not -1. *)
Lemma headless_table_has_no_nodes :
  exists doc,
    reduce headless_table = ret doc /\
    Z.of_nat (List.length (nodes doc))
    <> (Z.of_nat (List.length (hd [] headless_table)) - 1)%Z /\
    ~ round_trip_shape headless_table doc.
Proof.
  exists {| nodes := []; correlations := [] |}.
  split; [reflexivity|]. unfold round_trip_shape, headless_table. simpl.
  split; [lia|]. intros [H _]. lia.
Qed.

(** C9, amended.  For every table whose header row has at least one cell,
    the length of the output [nodes] is the number of header cells minus 1,
    the set of outer keys of [correlations] is the set of first cells of
    the data rows, and every data row has exactly one (possibly empty)
    inner mapping under its first cell. *)
Theorem shape_of_the_document rows doc :
  reduce rows = ret doc -> hd [] rows <> [] -> round_trip_shape rows doc.
Proof.
  intros H NE. pose proof (reduce_NoDup _ _ H) as ND.
  destruct (reduce_inr _ _ H) as (hdr & data & -> & Nd & O). simpl in *.
  assert (K : forall a, In a (keys (correlations doc)) <->
                        exists r, In r data /\ first r = ret a).
  { intros a. rewrite (outer_loop_keys _ _ _ _ _ O a). simpl. intuition. }
  split; [|split; [exact K|]].
  - rewrite Nd. destruct hdr; [easy|]. cbn [hd tl List.length]. lia.
  - intros r I. destruct r as [|a cells].
    + exfalso.
      rewrite (outer_loop_misshapen (tl hdr) data 0 []) in O; [discriminate|].
      exists []. split; auto. now left.
    + exists a. split; [reflexivity|].
      destruct (key_getitem a (correlations doc)) as [inner G].
      { apply K. exists (a :: cells). auto. }
      exists inner. split; [now apply getitem_In|].
      intros inner' I'. apply In_getitem in I'; auto. congruence.
Qed.

Lemma shape_of_scenario_A : round_trip_shape scenario_A document_A.
Proof.
  apply (shape_of_the_document scenario_A document_A).
  - vm_compute. reflexivity.
  - discriminate.
Defined.

(** C10.  When several data rows have the same first cell, [correlations]
    holds one key for that name and its inner mapping is the one the last
    such row builds on its own: each of its items comes from a cell of that
    row, and what an earlier row of the name recorded is gone. *)
Theorem last_row_of_a_name_wins hdr pre r post doc a :
  reduce (hdr :: pre ++ r :: post) = ret doc ->
  first r = ret a ->
  (forall r', In r' post -> first r' <> ret a) ->
  count_occ string_dec (keys (correlations doc)) a = 1 /\
  exists inner,
    getitem a (correlations doc) = Some inner /\
    row_step (tl hdr) (List.length pre) r [] = ret [(a, inner)] /\
    forall b v,
      getitem b inner = Some v ->
      exists j value,
        nth_error (tl r) j = Some value /\ float value = Some v /\
        nth_error (tl hdr) j = Some b /\ List.length pre < j.
Proof.
  intros H F L. pose proof (reduce_NoDup _ _ H) as ND.
  destruct (reduce_inr _ _ H) as (hdr' & data' & [= <- <-] & _ & O).
  destruct (outer_loop_last _ _ _ _ _ _ _ _ O F L) as (inner & G & R).
  simpl in R. split.
  - apply NoDup_count_occ'; auto. eapply getitem_Some_key; eauto.
  - exists inner. split; [exact G|]. split.
    + rewrite row_step_items, F. simpl. now rewrite R.
    + intros b v Gb.
      destruct (row_items_origin _ _ _ _ _ _ _ _ R Gb) as [E|E];
        [discriminate | exact E].
Qed.

Lemma last_row_of_a_name_wins_on_twice_table :
  count_occ string_dec
    (keys (correlations {| nodes := ["A"; "B"];
                           correlations := [("A", [])] |})) "A" = 1 /\
  exists inner,
    getitem "A" [("A", [])] = Some inner /\
    row_step ["A"; "B"] 1 ["A"; ""; ""] [] = ret [("A", inner)] /\
    forall b v,
      getitem b inner = Some v ->
      exists j value,
        nth_error [""; ""] j = Some value /\ float value = Some v /\
        nth_error ["A"; "B"] j = Some b /\ 1 < j.
Proof.
  apply (last_row_of_a_name_wins
           [""; "A"; "B"] [["A"; ""; "0.5"]] ["A"; ""; ""] []
           {| nodes := ["A"; "B"]; correlations := [("A", [])] |} "A").
  - vm_compute. reflexivity.
  - reflexivity.
  - intros r' [].
Defined.


(** ** Further properties of the script *)



Lemma cell_item_inl headers i j value e :
  cell_item headers i j value = inl e ->
  exists v, float value = Some v /\ List.length headers <= j.
Proof.
  unfold cell_item. destruct (_ && _)%bool; [|discriminate].
  destruct (float value) as [v|]; [|discriminate]. unfold index_at.
  destruct (nth_error headers j) eqn:H; simpl.
  - destruct (i <? j)%nat; discriminate.
  - intros _. exists v. split; auto. now apply nth_error_None.
Qed.

Lemma row_items_inl headers i cells : forall j0 inner e,
  row_items headers i j0 cells inner = inl e ->
  exists j value v,
    nth_error cells j = Some value /\ float value = Some v /\
    List.length headers <= j0 + j.
Proof.
  induction cells as [|c rest IH]; intros j0 inner e R; simpl in R.
  - discriminate.
  - destruct (cell_item headers i j0 c) as [x|o] eqn:C; simpl in R.
    + destruct (cell_item_inl _ _ _ _ _ C) as (v & F & L).
      exists 0, c, v. rewrite Nat.add_0_r. auto.
    + destruct (IH _ _ _ R) as (j & value & v & N & F & L).
      exists (S j), value, v. rewrite Nat.add_succ_r. auto.
Qed.

Lemma outer_loop_inl headers rows : forall i c e,
  outer_loop headers i rows c = inl e ->
  exists r, In r rows /\ misshapen headers r.
Proof.
  induction rows as [|r rest IH]; intros i c e H; simpl in H.
  - discriminate.
  - destruct (row_step headers i r c) as [x|c1] eqn:R; simpl in H.
    + exists r. split; [now left|]. rewrite row_step_items in R.
      destruct r as [|name cells]; [now left|]. right. simpl in *.
      destruct (row_items headers i 0 cells []) eqn:I; [|discriminate].
      exact (row_items_inl _ _ _ _ _ _ I).
    + destruct (IH _ _ _ H) as (r' & I & M). exists r'. split; auto.
      now right.
Qed.

(** X2.  The reduction fails, with [IndexError], exactly on the tables that
    are empty or hold a data row without cells or with a numeric cell at a
    position beyond the header, on either side of the diagonal; on every
    other table it returns a document. *)
Theorem reduce_fails_iff rows :
  (reduce rows = raise IndexError <-> ill_shaped rows) /\
  ((exists doc, reduce rows = ret doc) <-> ~ ill_shaped rows).
Proof.
  assert (A : reduce rows = raise IndexError <-> ill_shaped rows).
  { unfold ill_shaped, reduce. destruct rows as [|hdr data]; simpl.
    - split; auto.
    - split.
      + intros H. right.
        destruct (outer_loop (tl hdr) 0 data []) eqn:O; [|discriminate].
        eapply outer_loop_inl; eauto.
      + intros [H|H]; [discriminate|].
        now rewrite (outer_loop_misshapen _ _ 0 [] H). }
  split; [exact A|]. split.
  - intros [doc R] B. apply A in B. rewrite R in B. discriminate.
  - intros N. destruct (reduce rows) as [e|doc] eqn:R; eauto.
    exfalso. apply N, A. now rewrite (reduce_exn _ _ R).
Qed.

Lemma reduce_fails_iff_on_tall_table : ill_shaped tall_table.
Proof.
  apply (proj1 (reduce_fails_iff tall_table)). vm_compute. reflexivity.
Defined.

Lemma keys_setitem_old {V} k (v : V) d :
  In k (keys d) -> keys (setitem k v d) = keys d.
Proof.
  induction d as [|[k' v'] r IH]; simpl; [easy|].
  destruct (String.eqb_spec k k') as [->|N]; simpl; auto.
  intros [E|I]; [congruence|]. now rewrite IH.
Qed.

Lemma setitem_fresh {V} k (v : V) d :
  ~ In k (keys d) -> setitem k v d = d ++ [(k, v)].
Proof.
  induction d as [|[k' v'] r IH]; simpl; auto.
  destruct (String.eqb_spec k k') as [->|N]; intros H.
  - exfalso. auto.
  - rewrite IH; auto.
Qed.

Lemma existsb_eqb_In y l : existsb (String.eqb y) l = true <-> In y l.
Proof.
  rewrite existsb_exists. split.
  - intros (x & I & E). apply String.eqb_eq in E. now subst.
  - intros I. exists y. split; auto. apply String.eqb_refl.
Qed.

Lemma filter_twice {A} (p q : A -> bool) l :
  filter p (filter q l) = filter (fun x => q x && p x)%bool l.
Proof.
  induction l as [|x l IH]; simpl; auto.
  destruct (q x); simpl; [destruct (p x)|]; now rewrite IH.
Qed.

(** The keys after the outer loop: those before it, then the new row names
    in the order of their first occurrence. *)
Lemma outer_loop_key_order headers rows : forall i c c',
  outer_loop headers i rows c = inr c' ->
  keys c' =
  keys c ++ filter (fun y => negb (existsb (String.eqb y) (keys c)))
                   (first_occurrences (map (hd "") rows)).
Proof.
  induction rows as [|r rest IH]; intros i c c' H; simpl in H.
  - injection H as <-. simpl. now rewrite app_nil_r.
  - apply bind_inr in H. destruct H as (c1 & R & H).
    apply row_step_inr in R. destruct R as (name & inner & F & _ & ->).
    destruct r as [|name' cells]; [discriminate|]. injection F as ->.
    rewrite (IH _ _ _ H). simpl. rewrite filter_twice.
    destruct (existsb (String.eqb name) (keys c)) eqn:E; simpl.
    + apply existsb_eqb_In in E. rewrite (keys_setitem_old _ _ _ E).
      f_equal. apply filter_ext. intros y.
      destruct (String.eqb_spec y name) as [->|N]; simpl; auto.
      apply existsb_eqb_In in E. now rewrite E.
    + assert (N : ~ In name (keys c)).
      { intros I. apply existsb_eqb_In in I. congruence. }
      rewrite (setitem_fresh _ _ _ N). unfold keys at 1 2.
      rewrite map_app, <- app_assoc. simpl. do 2 f_equal.
      apply filter_ext. intros y. change (map fst c) with (keys c).
      rewrite existsb_app. simpl. rewrite orb_false_r.
      destruct (existsb (String.eqb y) (keys c)), (String.eqb y name); auto.
Qed.

(** X3.  The keys of [correlations] are the distinct names of the data
    rows in the order in which the names first occur in the table: a name
    that occurs again keeps the place of its first row. *)
Theorem outer_keys_in_first_occurrence_order rows doc :
  reduce rows = ret doc ->
  keys (correlations doc) = first_occurrences (map (hd "") (tl rows)).
Proof.
  intros H. destruct (reduce_inr _ _ H) as (hdr & data & -> & _ & O).
  rewrite (outer_loop_key_order _ _ _ _ _ O). simpl.
  induction (first_occurrences (map (hd "") data)) as [|x l IH]; simpl;
    congruence.
Qed.

Lemma outer_keys_of_mixed_table :
  keys [("A", []); ("B", [("C", d0_9)])]
  = first_occurrences (map (hd "") (tl mixed_table)).
Proof.
  apply (outer_keys_in_first_occurrence_order mixed_table
           {| nodes := ["A"; "B"; "C"];
              correlations := [("A", []); ("B", [("C", d0_9)])] |}).
  vm_compute. reflexivity.
Defined.

(** With distinct node names each numeric cell right of the diagonal adds a
    new key at the end of the mapping of its row. *)
Lemma row_items_upper headers i cells : forall j0 inner inner',
  NoDup headers ->
  (forall k, In k (keys inner) ->
             exists j, j < j0 /\ nth_error headers j = Some k) ->
  row_items headers i j0 cells inner = inr inner' ->
  inner' = inner ++ upper_cells headers i j0 cells.
Proof.
  induction cells as [|value rest IH]; intros j0 inner inner' ND K R;
    simpl in R.
  - injection R as <-. simpl. now rewrite app_nil_r.
  - apply bind_inr in R. destruct R as (o & C & R).
    assert (W : forall k, In k (keys inner) ->
                          exists j, j < S j0 /\ nth_error headers j = Some k).
    { intros k I. destruct (K k I) as (j & L & N). eauto. }
    unfold cell_item in C. simpl.
    destruct (_ && _)%bool eqn:G.
    + destruct (float value) as [v|].
      * unfold index_at in C.
        destruct (nth_error headers j0) as [b|] eqn:Hb; simpl in C;
          [|discriminate].
        destruct (i <? j0)%nat; injection C as <-; simpl in R; [|eauto].
        assert (Fr : ~ In b (keys inner)).
        { intros I. destruct (K b I) as (j & L & N).
          assert (j = j0); [|lia].
          apply (proj1 (NoDup_nth_error headers) ND); [|congruence].
          apply nth_error_Some. congruence. }
        rewrite (setitem_fresh _ _ _ Fr) in R.
        apply (IH (S j0) _ _ ND) in R.
        -- now rewrite R, <- app_assoc.
        -- intros k I. unfold keys in I. rewrite map_app in I.
           apply in_app_iff in I. destruct I as [I|[<-|[]]]; eauto.
      * injection C as <-. simpl in R. eauto.
    + apply guard_false, float_blank in G. rewrite G.
      injection C as <-. simpl in R. eauto.
Qed.

(** X4.  With pairwise distinct node names, the mapping under a row name is
    the list, in column order, of the numeric cells right of the diagonal
    of the last row of that name, each under the node of its column. *)
Theorem row_mapping_is_upper_cells hdr pre r post doc a :
  reduce (hdr :: pre ++ r :: post) = ret doc ->
  NoDup (tl hdr) ->
  first r = ret a ->
  (forall r', In r' post -> first r' <> ret a) ->
  getitem a (correlations doc)
  = Some (upper_cells (tl hdr) (List.length pre) 0 (tl r)).
Proof.
  intros H ND F L.
  destruct (reduce_inr _ _ H) as (hdr' & data' & [= <- <-] & _ & O).
  destruct (outer_loop_last _ _ _ _ _ _ _ _ O F L) as (inner & G & R).
  simpl in R. rewrite G. f_equal.
  apply (row_items_upper _ _ _ 0 [] inner ND); auto.
  intros k [].
Qed.

Lemma row_mapping_of_mixed_table :
  getitem "B" [("A", []); ("B", [("C", d0_9)])]
  = Some (upper_cells ["A"; "B"; "C"] 1 0 ["0.5"; "x"; "0.9"]).
Proof.
  apply (row_mapping_is_upper_cells
           [""; "A"; "B"; "C"] [["A"; "1"; "0.5"; "NA"]]
           ["B"; "0.5"; "x"; "0.9"] [["A"; "7"; "8"]]
           {| nodes := ["A"; "B"; "C"];
              correlations := [("A", []); ("B", [("C", d0_9)])] |} "B").
  - vm_compute. reflexivity.
  - simpl. repeat constructor; simpl; intuition discriminate.
  - reflexivity.
  - intros r' [<-|[]]. discriminate.
Defined.

(** X5.  The test of line 23 changes nothing: [float] refuses every cell
    that the test skips, so a cell is looked up in the header and recorded
    exactly when [float] accepts it. *)
Theorem guard_is_redundant headers i node_name j value correlations :
  cell_step headers i node_name j value correlations
  = cell_step_unguarded headers i node_name j value correlations.
Proof.
  unfold cell_step, cell_step_unguarded.
  destruct (_ && _)%bool eqn:G; auto.
  apply guard_false, float_blank in G. now rewrite G.
Qed.

Lemma outer_loop_app headers rows1 rows2 : forall i c,
  outer_loop headers i (rows1 ++ rows2) c =
  (c1 <- outer_loop headers i rows1 c ;;
   outer_loop headers (i + List.length rows1) rows2 c1).
Proof.
  induction rows1 as [|r rest IH]; intros i c; simpl.
  - now rewrite Nat.add_0_r.
  - destruct (row_step headers i r c); simpl; auto.
    now rewrite IH, Nat.add_succ_r.
Qed.

(** X6.  Rows added at the end of the table leave the nodes, the keys
    already there with their order, and the mapping of every name that the
    added rows do not bear as they were; new keys come after the old. *)
Theorem appended_rows_are_local hdr data more doc doc' :
  reduce (hdr :: data) = ret doc ->
  reduce (hdr :: data ++ more) = ret doc' ->
  nodes doc' = nodes doc /\
  (exists new, keys (correlations doc') = keys (correlations doc) ++ new) /\
  (forall a, (forall r, In r more -> first r <> ret a) ->
             getitem a (correlations doc') = getitem a (correlations doc)).
Proof.
  intros H H'.
  destruct (reduce_inr _ _ H) as (? & ? & [= <- <-] & Nd & O).
  destruct (reduce_inr _ _ H') as (? & ? & [= <- <-] & Nd' & O').
  rewrite outer_loop_app, O in O'. simpl in O'.
  split; [congruence|]. split.
  - eexists. apply (outer_loop_key_order _ _ _ _ _ O').
  - intros a N. apply (outer_loop_other _ _ _ _ _ _ O' N).
Qed.

Lemma appended_rows_of_mixed_table :
  nodes {| nodes := ["A"; "B"; "C"];
           correlations := [("A", []); ("B", [("C", d0_9)])] |}
  = nodes {| nodes := ["A"; "B"; "C"];
             correlations := [("A", [("B", d0_5)]); ("B", [("C", d0_9)])] |}
  /\
  (exists new,
      keys [("A", @nil (string * binary64)); ("B", [("C", d0_9)])]
      = keys [("A", [("B", d0_5)]); ("B", [("C", d0_9)])] ++ new) /\
  (forall a, (forall r, In r [["A"; "7"; "8"]] -> first r <> ret a) ->
             getitem a [("A", []); ("B", [("C", d0_9)])]
             = getitem a [("A", [("B", d0_5)]); ("B", [("C", d0_9)])]).
Proof.
  apply (appended_rows_are_local
           [""; "A"; "B"; "C"]
           [["A"; "1"; "0.5"; "NA"]; ["B"; "0.5"; "x"; "0.9"]]
           [["A"; "7"; "8"]]
           {| nodes := ["A"; "B"; "C"];
              correlations := [("A", [("B", d0_5)]); ("B", [("C", d0_9)])] |}
           {| nodes := ["A"; "B"; "C"];
              correlations := [("A", []); ("B", [("C", d0_9)])] |});
    vm_compute; reflexivity.
Defined.

Lemma cell_item_scrub headers i j value :
  cell_item headers i j (scrub value) = cell_item headers i j value.
Proof.
  unfold scrub. destruct (float value) eqn:F; auto.
  unfold cell_item at 2. rewrite F.
  now destruct (_ && _)%bool.
Qed.

Lemma row_items_scrub headers i cells : forall j inner,
  row_items headers i j (map scrub cells) inner
  = row_items headers i j cells inner.
Proof.
  induction cells as [|value rest IH]; intros j inner; simpl; auto.
  rewrite cell_item_scrub.
  destruct (cell_item headers i j value); simpl; auto.
Qed.

Lemma outer_loop_scrub headers rows : forall i c,
  outer_loop headers i (map scrub_row rows) c = outer_loop headers i rows c.
Proof.
  induction rows as [|r rest IH]; intros i c; simpl; auto.
  assert (R : row_step headers i (scrub_row r) c = row_step headers i r c).
  { rewrite !row_step_items. destruct r as [|name cells]; simpl; auto.
    now rewrite row_items_scrub. }
  rewrite R. destruct (row_step headers i r c); simpl; auto.
Qed.

(** X7.  Cells that are no numbers count as empty cells wherever they
    stand: emptying every such cell of the data rows changes neither the
    document nor a failure. *)
Theorem text_cells_count_as_empty hdr data :
  reduce (hdr :: map scrub_row data) = reduce (hdr :: data).
Proof. unfold reduce. simpl. now rewrite outer_loop_scrub. Qed.

Lemma row_items_app headers i c1 : forall c2 j0 inner,
  row_items headers i j0 (c1 ++ c2) inner =
  (x <- row_items headers i j0 c1 inner ;;
   row_items headers i (j0 + List.length c1) c2 x).
Proof.
  induction c1 as [|value rest IH]; intros c2 j0 inner; simpl.
  - now rewrite Nat.add_0_r.
  - destruct (cell_item headers i j0 value); simpl; auto.
    now rewrite IH, Nat.add_succ_r.
Qed.

Lemma cell_item_lower headers i j value :
  j <= i -> j < List.length headers -> cell_item headers i j value = ret None.
Proof.
  intros L B. unfold cell_item. destruct (_ && _)%bool; auto.
  destruct (float value); auto. unfold index_at.
  destruct (nth_error headers j) eqn:H; simpl.
  - apply Nat.ltb_ge in L. now rewrite L.
  - apply nth_error_None in H. lia.
Qed.

Lemma row_items_lower headers i cells : forall j0 inner,
  j0 + List.length cells <= S i -> i < List.length headers ->
  row_items headers i j0 cells inner = ret inner.
Proof.
  induction cells as [|value rest IH]; intros j0 inner L B; simpl in *; auto.
  rewrite cell_item_lower by lia. simpl. apply IH; lia.
Qed.

(** In a row whose index is a node index, the loop may start right of the
    diagonal. *)
Lemma row_items_skip_lower headers i cells inner :
  i < List.length headers ->
  row_items headers i 0 cells inner
  = row_items headers i (S i) (skipn (S i) cells) inner.
Proof.
  intros B. rewrite <- (firstn_skipn (S i) cells) at 1.
  rewrite row_items_app, row_items_lower; auto.
  - unfold ret. cbn [bind Nat.add].
    destruct (skipn (S i) cells) as [|x l] eqn:E; auto.
    rewrite length_firstn. f_equal.
    assert (List.length (skipn (S i) cells) <> 0) by now rewrite E.
    rewrite length_skipn in *. lia.
  - rewrite length_firstn. lia.
Qed.

Lemma outer_loop_same_above headers data1 : forall data2 i c,
  i + List.length data1 <= List.length headers ->
  List.length data1 = List.length data2 ->
  (forall k r1 r2,
      nth_error data1 k = Some r1 -> nth_error data2 k = Some r2 ->
      same_above (i + k) r1 r2) ->
  outer_loop headers i data1 c = outer_loop headers i data2 c.
Proof.
  induction data1 as [|r1 rest1 IH]; intros [|r2 rest2] i c B L S;
    try discriminate; auto.
  simpl in *.
  assert (R : row_step headers i r1 c = row_step headers i r2 c).
  { destruct (S 0 r1 r2 eq_refl eq_refl) as [F A].
    rewrite Nat.add_0_r in A. rewrite !row_step_items, F.
    rewrite !(row_items_skip_lower headers i) by lia.
    replace (skipn (Datatypes.S i) (tl r1))
      with (skipn (Datatypes.S i) (tl r2)); auto.
    apply nth_error_ext. intros n. rewrite !nth_error_skipn.
    symmetry. apply A. lia. }
  rewrite R. destruct (row_step headers i r2 c); simpl; auto.
  apply IH; try lia.
  intros k x1 x2 N1 N2. rewrite Nat.add_succ_l, <- Nat.add_succ_r.
  now apply S.
Qed.

(** X8.  When the table has no more data rows than nodes, the cells on and
    under the diagonal are not looked at: two tables with the same header
    whose rows have, index by index, the same name and the same cells right
    of the diagonal give the same document or the same failure. *)
Theorem lower_triangle_is_ignored hdr data1 data2 :
  List.length data1 <= List.length (tl hdr) ->
  List.length data1 = List.length data2 ->
  (forall i r1 r2,
      nth_error data1 i = Some r1 -> nth_error data2 i = Some r2 ->
      same_above i r1 r2) ->
  reduce (hdr :: data1) = reduce (hdr :: data2).
Proof.
  intros B L S. unfold reduce. simpl.
  now rewrite (outer_loop_same_above (tl hdr) data1 data2 0 []).
Qed.

Lemma lower_triangle_of_mixed_table :
  reduce mixed_table = reduce mixed_table'.
Proof.
  apply (lower_triangle_is_ignored (hd [] mixed_table) (tl mixed_table)
                                   (tl mixed_table')).
  - simpl. lia.
  - reflexivity.
  - intros i r1 r2 N1 N2. unfold mixed_table, mixed_table' in *.
    destruct i as [|[|[|[|i]]]]; simpl in N1, N2;
      try discriminate; injection N1 as <-; injection N2 as <-;
      (split; [reflexivity|]); intros j Lj;
      do 3 (destruct j as [|j]; [lia || reflexivity|]);
      simpl; now destruct j.
Defined.

Lemma row_items_NoDup headers i cells : forall j inner inner',
  row_items headers i j cells inner = inr inner' ->
  NoDup (keys inner) -> NoDup (keys inner').
Proof.
  induction cells as [|value rest IH]; intros j inner inner' R ND;
    simpl in R.
  - now injection R as <-.
  - apply bind_inr in R. destruct R as (o & _ & R).
    apply (IH _ _ _ R). destruct o as [[b v]|]; simpl; auto.
    now apply NoDup_keys_setitem.
Qed.

(** X9.  The mapping under a row name has no key twice and at most as many
    entries as there are nodes after the index of the last row of that
    name; from the index of the last node on it is empty. *)
Theorem row_mapping_is_bounded hdr pre r post doc a :
  reduce (hdr :: pre ++ r :: post) = ret doc ->
  first r = ret a ->
  (forall r', In r' post -> first r' <> ret a) ->
  exists inner,
    getitem a (correlations doc) = Some inner /\
    NoDup (keys inner) /\
    List.length inner <= List.length (tl hdr) - S (List.length pre).
Proof.
  intros H F L.
  destruct (reduce_inr _ _ H) as (hdr' & data' & [= <- <-] & _ & O).
  destruct (outer_loop_last _ _ _ _ _ _ _ _ O F L) as (inner & G & R).
  simpl in R. exists inner. split; auto.
  assert (ND : NoDup (keys inner)).
  { apply (row_items_NoDup _ _ _ _ _ _ R). constructor. }
  split; auto.
  rewrite <- (length_map fst inner), <- length_skipn.
  apply NoDup_incl_length; [exact ND|].
  intros b I. apply key_getitem in I. destruct I as [v Gb].
  destruct (row_items_origin _ _ _ _ _ _ _ _ R Gb)
    as [E|(j & value & _ & _ & Hb & Lt)]; [discriminate|].
  simpl in Hb. apply (nth_error_In _ (j - S (List.length pre))).
  rewrite nth_error_skipn. rewrite <- Hb. f_equal. lia.
Qed.

Lemma row_mapping_of_mixed_table_is_bounded :
  exists inner,
    getitem "B" [("A", []); ("B", [("C", d0_9)])] = Some inner /\
    NoDup (keys inner) /\
    List.length inner <= List.length ["A"; "B"; "C"] - 2.
Proof.
  apply (row_mapping_is_bounded
           [""; "A"; "B"; "C"] [["A"; "1"; "0.5"; "NA"]]
           ["B"; "0.5"; "x"; "0.9"] [["A"; "7"; "8"]]
           {| nodes := ["A"; "B"; "C"];
              correlations := [("A", []); ("B", [("C", d0_9)])] |} "B").
  - vm_compute. reflexivity.
  - reflexivity.
  - intros r' [<-|[]]. discriminate.
Defined.
